(** * ThreadPool: a shallow embedding of [threadpool.hpp]

    The header defines the type-erased result container [Any], the counting
    [Semaphore], and declares [Result], [Task], [Thread] and [ThreadPool].
    [Any] and [Semaphore] are embedded from their inline bodies.  The member
    functions of the other classes are only declared in the header; they are
    modelled from the specification and marked as such. *)

From Stdlib Require Import ZArith String.
From stdpp Require Import base decidable option list gmap.

Local Open Scope Z_scope.

(** ** C++ types and thrown values *)

(** The types [T] at which the templates [Any::Any<T>] and [Any::cast_<T>]
    are instantiated.  [cpp_type] names them (two names are equal exactly when
    the C++ types are the same type, so that [Derive<T>] and [Derive<T'>] are
    the same class exactly when [T = T']); [payload T] is the set of values of
    [T].  Copy construction of a payload yields an equal value. *)
Class Rtti := {
  cpp_type : Type;
  cpp_type_eq_dec :: EqDecision cpp_type;
  payload : cpp_type -> Type
}.

(** A small concrete universe, used to run the definitions. *)
Inductive sample_type := T_int | T_long | T_string.

#[global] Instance sample_type_eq_dec : EqDecision sample_type.
Proof. solve_decision. Defined.

Definition sample_payload (T : sample_type) : Type :=
  match T with
  | T_int => Z
  | T_long => Z
  | T_string => string
  end.

Definition sample_rtti : Rtti :=
  {| cpp_type := sample_type; payload := sample_payload |}.

(** A thrown C string: [throw "..."]. *)
Inductive thrown := Throw (what : string).

(** [throw "type is unmatch!"], the specification's [TypeMismatch]. *)
Definition TypeMismatch : thrown := Throw "type is unmatch!".

Section ThreadPool.
Context {R : Rtti}.

(** ** class Any *)

(** [Any::Base] is a polymorphic class whose only derived classes are the
    instances of [Any::Derive<T>]; an object of dynamic class [Derive<T>]
    holds [data_ : T]. *)
Inductive Base := Derive (T : cpp_type) (data_ : payload T).

(** [std::unique_ptr<Base> base_]; [None] is the null pointer. *)
Record Any := mkAny { base_ : option Base }.

(** [Any() = default]: [base_] is null. *)
Definition Any_default : Any := mkAny None.

(** [template<typename T> Any(T data) : base_(std::make_unique<Derive<T>>(data))] *)
Definition Any_of (T : cpp_type) (data : payload T) : Any :=
  mkAny (Some (Derive T data)).

(** [Any(Any&&) = default] and [operator=(Any&&) = default]: the pointer moves
    to the destination and the source is left null.  Returns the pair
    (destination, source after the move). *)
Definition Any_move (src : Any) : Any * Any :=
  (mkAny (base_ src), mkAny None).

(** [dynamic_cast<Derive<T>*>(p)]: null for a null [p], null when the dynamic
    class of the pointee is not [Derive<T>], and the pointee otherwise (from
    which [data_] is read). *)
Definition dynamic_cast_Derive (T : cpp_type) (p : option Base)
  : option (payload T) :=
  match p with
  | None => None
  | Some (Derive T' d) =>
      match decide (T' = T) with
      | left e => Some (eq_rect T' payload d T e)
      | right _ => None
      end
  end.

(** [template<typename T> T cast_()].  The member function is not [const] but
    never assigns [base_]; the second component is the object after the call. *)
Definition cast_ (T : cpp_type) (a : Any) : (thrown + payload T) * Any :=
  match dynamic_cast_Derive T (base_ a) with
  | None => (inl TypeMismatch, a)
  | Some d => (inr d, a)
  end.

(** ** class Semaphore *)

(** [resLimit_] is a C++ [int]: incrementing it at [INT_MAX] is undefined. *)
Definition INT_MAX : Z := 2147483647.

(** [int resLimit_], and the state of [std::condition_variable cond_] seen by
    the threads inside [wait()]: [cond_] holds the threads asleep on the
    condition variable, [notified] those that were woken and still have to
    take [mtx_] again and re-test the predicate.  Every member function runs
    under [mtx_], so each critical section is one atomic step. *)
Record Semaphore := mkSemaphore {
  resLimit_ : Z;
  cond_ : gset nat;
  notified : gset nat
}.

(** [Semaphore(int limit = 0) : resLimit_(limit)] *)
Definition Semaphore_new (limit : Z) : Semaphore :=
  mkSemaphore limit ∅ ∅.

Definition Semaphore_default : Semaphore := Semaphore_new 0.

Inductive wait_status := Returned | Blocked.

(** The predicate of [cond_.wait(lock, [&]()->bool { return resLimit_ > 0; })]. *)
Definition wait_pred (s : Semaphore) : bool := 0 <? resLimit_ s.

(** One pass of thread [t] through [wait()] while it holds [mtx_]:
    [cond_.wait(lock, pred)] is [while (!pred()) cond_.wait(lock);], so the
    thread either finds the predicate true, runs [resLimit_--] and returns, or
    goes to sleep on [cond_] (releasing [mtx_]). *)
Definition wait_test (t : nat) (s : Semaphore) : Semaphore * wait_status :=
  if wait_pred s
  then (mkSemaphore (resLimit_ s - 1) (cond_ s ∖ {[t]}) (notified s ∖ {[t]}),
        Returned)
  else (mkSemaphore (resLimit_ s) (cond_ s ∪ {[t]}) (notified s ∖ {[t]}),
        Blocked).

(** [void post()]: [resLimit_++; cond_.notify_all();].  [None] is the
    undefined signed overflow. *)
Definition post (s : Semaphore) : option Semaphore :=
  if resLimit_ s <? INT_MAX
  then Some (mkSemaphore (resLimit_ s + 1) ∅ (notified s ∪ cond_ s))
  else None.

(** The critical sections that threads can run on one semaphore. *)
Inductive sem_event :=
  | CallWait (t : nat)   (* thread [t] calls [wait()] *)
  | Resume (t : nat)     (* notified thread [t] retakes [mtx_], re-tests *)
  | Spurious (t : nat)   (* sleeping thread [t] wakes without a notify *)
  | CallPost.            (* some thread calls [post()] *)

(** One step; the boolean tells whether a call of [wait()] returned in this
    step.  [None]: the event cannot happen in this state (a thread that is
    inside [wait()] cannot call it again, only a notified thread resumes, only
    a sleeping thread wakes), or [post] overflows. *)
Definition sem_step (s : Semaphore) (e : sem_event)
  : option (Semaphore * bool) :=
  match e with
  | CallWait t =>
      if decide (t ∈ cond_ s ∪ notified s) then None
      else let '(s', st) := wait_test t s in
           Some (s', if st is Returned then true else false)
  | Resume t =>
      if decide (t ∈ notified s)
      then let '(s', st) := wait_test t s in
           Some (s', if st is Returned then true else false)
      else None
  | Spurious t =>
      if decide (t ∈ cond_ s)
      then Some (mkSemaphore (resLimit_ s) (cond_ s ∖ {[t]})
                             (notified s ∪ {[t]}), false)
      else None
  | CallPost => s' ← post s; Some (s', false)
  end.

(** Runs a schedule; also counts the calls of [wait()] that returned. *)
Fixpoint sem_run (s : Semaphore) (tr : list sem_event)
  : option (Semaphore * nat) :=
  match tr with
  | [] => Some (s, 0%nat)
  | e :: tr' =>
      '(s1, ret) ← sem_step s e;
      '(s2, m) ← sem_run s1 tr';
      Some (s2, ((if ret : bool then 1 else 0) + m)%nat)
  end.

(** Number of calls of [post()] in a schedule. *)
Fixpoint posts (tr : list sem_event) : nat :=
  match tr with
  | [] => 0%nat
  | CallPost :: tr' => S (posts tr')
  | _ :: tr' => posts tr'
  end.

(** States a default-constructed semaphore can reach. *)
Definition sem_reachable (s : Semaphore) : Prop :=
  ∃ tr m, sem_run Semaphore_default tr = Some (s, m).

(** No thread is asleep on [cond_] while the count is positive. *)
Definition no_lost_wakeup (s : Semaphore) : Prop :=
  ∀ t, t ∈ cond_ s → resLimit_ s ≤ 0.

(** ** class Task, class Result *)

(** [class Task] is abstract ([virtual Any run() = 0]); the pool holds
    [std::shared_ptr<Task>] values and never looks inside the object. *)
Context {Task : Type}.

(** The data members of [class Result]. *)
Record Result := mkResult {
  any_ : Any;
  sem_ : Semaphore;
  task_ : Task;
  isValid_ : bool
}.

(** Modelled from the spec: the body of the constructor
    [Result(std::shared_ptr<Task> task, bool isValid = true)] is not in the
    header.  Section 3: a Value slot (initially empty), a Latch, a shared
    reference to its Task, a validity flag. *)
Definition Result_new (task : Task) (isValid : bool) : Result :=
  mkResult Any_default Semaphore_default task isValid.

(** Modelled from the spec: the body of [Result::setVal] is not in the header.
    Section 4.4: moves [v] into the slot and signals the Latch. *)
Definition setVal (any : Any) (r : Result) : option Result :=
  s' ← post (sem_ r);
  Some (mkResult (fst (Any_move any)) s' (task_ r) (isValid_ r)).

Inductive get_outcome := GetReturned (v : Any) | GetBlocked.

(** Modelled from the spec: the body of [Result::get] is not in the header.
    Section 4.4: waits on the Latch, then moves the slot out; if the handle
    was created invalid, returns an empty Value immediately.  [get_test] is
    one pass of the calling thread [t] through the wait. *)
Definition get_test (t : nat) (r : Result) : get_outcome * Result :=
  match wait_test t (sem_ r) with
  | (s', Returned) =>
      let '(v, src) := Any_move (any_ r) in
      (GetReturned v, mkResult src s' (task_ r) (isValid_ r))
  | (s', Blocked) =>
      (GetBlocked, mkResult (any_ r) s' (task_ r) (isValid_ r))
  end.

Definition get (t : nat) (r : Result) : get_outcome * Result :=
  if negb (isValid_ r) then (GetReturned Any_default, r)
  else get_test t r.

(** ** enum class PoolMode, class Thread *)

Inductive PoolMode := MODE_FIXED | MODE_CACHED.

(** [class Thread]: [int threadId_].  ([func_] is the pool's [threadFunc].) *)
Record Thread := mkThread { threadId_ : Z }.

(** Arithmetic on a 32-bit [int] ([std::atomic_int] and the like): the result
    wraps around in two's complement. *)
Definition int_wrap (z : Z) : Z := (z + 2 ^ 31) mod 2 ^ 32 - 2 ^ 31.

(** Modelled from the spec: the body of the constructor [Thread(ThreadFunc)]
    is not in the header.  Sections 3 and 4.5.2 say that each worker is
    assigned a fresh id and that ids increase; they do not say where the id
    comes from.  The header declares [int threadId_] and, as the only source
    of ids, the counter [static int generateId_]; the model reads the id from
    that counter and steps it as an [int].  Takes the counter and returns the
    new thread and the counter after the construction.  The properties below
    hold for every value of the counter and none depends on the ids drawn. *)
Definition Thread_new (generateId_ : Z) : Thread * Z :=
  (mkThread generateId_, int_wrap (generateId_ + 1)).

(** ** class ThreadPool *)

(** The data members of [class ThreadPool].  The mutex and the three condition
    variables carry no data; every operation below is a critical section of
    [taskQueMtx_]. *)
Record ThreadPool := mkThreadPool {
  threads_ : gmap Z Thread;
  initThreadSize_ : Z;
  threadSizeThreshHold_ : Z;
  curThreadSize_ : Z;
  idleThreadSize_ : Z;
  taskQue_ : list Task;
  taskSize_ : Z;
  taskQueMaxThreshHold_ : Z;
  poolMode_ : PoolMode;
  isPoolRunning_ : bool
}.

(** [std::queue<std::shared_ptr<Task>>]: [push] appends at the back, [front]
    and [pop] read and remove the first element. *)
Definition queue_push (sp : Task) (q : list Task) : list Task := q ++ [sp].

Definition queue_pop (q : list Task) : option (Task * list Task) :=
  match q with
  | [] => None
  | sp :: q' => Some (sp, q')
  end.

(** Modelled from the spec: the error the configuration setters and [start]
    raise (section 7); the header does not say how the member functions
    report it. *)
Inductive pool_error := AlreadyRunning.

(** Modelled from the spec: the body of the constructor [ThreadPool()] is not
    in the header.  Section 6: a pool in the Configured state; section 3: the
    queue bound defaults to 1024.  The spec gives no default for the mode and
    the worker cap; they are arguments here. *)
Definition ThreadPool_new (mode : PoolMode) (threadSizeThreshHold : Z)
  : ThreadPool :=
  mkThreadPool ∅ 0 threadSizeThreshHold 0 0 [] 0 1024 mode false.

(** Modelled from the spec: the body of [checkRunningState] is not in the
    header; it reports whether [start] has run. *)
Definition checkRunningState (p : ThreadPool) : bool := isPoolRunning_ p.

(** Modelled from the spec: the bodies of [setMode],
    [setTaskQueMaxThreshHold] and [setThreadSizeThreshHold] are not in the
    header.  Section 4.5.1: all reject with [AlreadyRunning] if called after
    [start]; section 3: they set the mode, the queue bound and the worker
    cap.  Each returns what it raises or returns, and the pool afterwards. *)
Definition setMode (mode : PoolMode) (p : ThreadPool)
  : (pool_error + unit) * ThreadPool :=
  if checkRunningState p then (inl AlreadyRunning, p)
  else (inr tt,
        mkThreadPool (threads_ p) (initThreadSize_ p) (threadSizeThreshHold_ p)
          (curThreadSize_ p) (idleThreadSize_ p) (taskQue_ p) (taskSize_ p)
          (taskQueMaxThreshHold_ p) mode (isPoolRunning_ p)).

Definition setTaskQueMaxThreshHold (threshhold : Z) (p : ThreadPool)
  : (pool_error + unit) * ThreadPool :=
  if checkRunningState p then (inl AlreadyRunning, p)
  else (inr tt,
        mkThreadPool (threads_ p) (initThreadSize_ p) (threadSizeThreshHold_ p)
          (curThreadSize_ p) (idleThreadSize_ p) (taskQue_ p) (taskSize_ p)
          threshhold (poolMode_ p) (isPoolRunning_ p)).

Definition setThreadSizeThreshHold (threshhold : Z) (p : ThreadPool)
  : (pool_error + unit) * ThreadPool :=
  if checkRunningState p then (inl AlreadyRunning, p)
  else (inr tt,
        mkThreadPool (threads_ p) (initThreadSize_ p) threshhold
          (curThreadSize_ p) (idleThreadSize_ p) (taskQue_ p) (taskSize_ p)
          (taskQueMaxThreshHold_ p) (poolMode_ p) (isPoolRunning_ p)).

(** Creates [n] threads one after the other and inserts each into the
    registry under its id. *)
Fixpoint create_threads (n : nat) (generateId_ : Z) (threads : gmap Z Thread)
  : Z * gmap Z Thread :=
  match n with
  | O => (generateId_, threads)
  | S n' =>
      let '(th, g') := Thread_new generateId_ in
      create_threads n' g' (<[threadId_ th := th]> threads)
  end.

(** Modelled from the spec: the body of [start] is not in the header.
    Section 4.5.2: precondition, the pool is not already running
    ([AlreadyRunning] in section 6); records [initialWorkerCount = initial],
    sets [running = true]; creates [initial] workers, assigns each a fresh id,
    inserts it into the registry.  [curThreadSize_] is the number of live
    workers (section 3).  Takes and returns the static [generateId_] next to
    the pool. *)
Definition start (initThreadSize : Z) (generateId_ : Z) (p : ThreadPool)
  : (pool_error + unit) * (Z * ThreadPool) :=
  if checkRunningState p then (inl AlreadyRunning, (generateId_, p))
  else
    let '(g', threads) :=
      create_threads (Z.to_nat initThreadSize) generateId_ (threads_ p) in
    (inr tt,
     (g', mkThreadPool threads initThreadSize (threadSizeThreshHold_ p)
            initThreadSize (idleThreadSize_ p) (taskQue_ p) (taskSize_ p)
            (taskQueMaxThreshHold_ p) (poolMode_ p) true)).

(** The predicate of the wait on [notFull_]: [queue.length < maxQueueLength]. *)
Definition notFull_pred (p : ThreadPool) : bool :=
  Z.of_nat (length (taskQue_ p)) <? taskQueMaxThreshHold_ p.

(** Section 4.5.3, elasticity: CACHED mode, [queueSize > idleWorkerCount] and
    [currentWorkerCount < maxWorkerCount]. *)
Definition must_grow (mode : PoolMode) (taskSize idle cur cap : Z) : bool :=
  match mode with
  | MODE_CACHED => (idle <? taskSize) && (cur <? cap)
  | MODE_FIXED => false
  end.

(** Modelled from the spec: the body of [submitTask] is not in the header.
    This is its critical section, run on the pool as it is when the wait on
    [notFull_] ends.  Section 4.5.3: without space, return an invalid
    ResultHandle bound to the task; otherwise push the task, increment
    [queueSize], and in CACHED mode under queue pressure create one more
    worker, insert it into the registry and increment [currentWorkerCount];
    return a valid ResultHandle.  These steps do not read the running flag:
    the lack of space after the bounded wait is the sole reason for an
    invalid handle. *)
Definition submitTask_after_wait (sp : Task) (generateId_ : Z) (p : ThreadPool)
  : (pool_error + Result) * (Z * ThreadPool) :=
  if negb (notFull_pred p) then
    (inr (Result_new sp false), (generateId_, p))
  else
    let que := queue_push sp (taskQue_ p) in
    let size := int_wrap (taskSize_ p + 1) in
    if must_grow (poolMode_ p) size (idleThreadSize_ p) (curThreadSize_ p)
         (threadSizeThreshHold_ p)
    then
      let '(th, g') := Thread_new generateId_ in
      (inr (Result_new sp true),
       (g', mkThreadPool (<[threadId_ th := th]> (threads_ p))
              (initThreadSize_ p) (threadSizeThreshHold_ p)
              (int_wrap (curThreadSize_ p + 1)) (idleThreadSize_ p) que size
              (taskQueMaxThreshHold_ p) (poolMode_ p) (isPoolRunning_ p)))
    else
      (inr (Result_new sp true),
       (generateId_,
        mkThreadPool (threads_ p) (initThreadSize_ p) (threadSizeThreshHold_ p)
          (curThreadSize_ p) (idleThreadSize_ p) que size
          (taskQueMaxThreshHold_ p) (poolMode_ p) (isPoolRunning_ p))).

(** The bounded wait of [submitTask] lasts at most one second, counted here in
    milliseconds. *)
Definition SUBMIT_TIMEOUT : nat := 1000.

(** Modelled from the spec: the wait on [notFull_] of section 4.5.3, until
    [queue.length < maxQueueLength], bounded by the timeout.  [env t] is the
    pool as the other threads have left it [t] milliseconds after the caller
    took the mutex; the wait ends at the first moment the predicate holds, or
    when the budget is used up.  Returns the time waited and the pool then. *)
Fixpoint wait_notFull (budget elapsed : nat) (env : nat -> ThreadPool)
  : nat * ThreadPool :=
  if notFull_pred (env elapsed) then (elapsed, env elapsed)
  else match budget with
       | O => (elapsed, env elapsed)
       | S budget' => wait_notFull budget' (S elapsed) env
       end.

(** [submitTask]: the bounded wait, then the critical section.  Returns the
    time waited next to the result. *)
Definition submitTask (sp : Task) (generateId_ : Z) (env : nat -> ThreadPool)
  : nat * ((pool_error + Result) * (Z * ThreadPool)) :=
  let '(waited, p) := wait_notFull SUBMIT_TIMEOUT 0 env in
  (waited, submitTask_after_wait sp generateId_ p).

Inductive worker_outcome := Took (sp : Task) | Exited | Waiting.

(** Modelled from the spec: the body of [threadFunc] is not in the header.
    One pass of worker [threadid] through the critical section of its loop
    (section 4.5.4, steps 2 to 5).  With an empty queue: if the pool is
    shutting down, decrement [currentWorkerCount], remove the worker from the
    registry and terminate; in CACHED mode above the baseline, self-retire
    (decrement the counters, remove from the registry) when the timed wait
    ran out and the worker has been idle for 60 seconds ([idle_expired]);
    otherwise wait.  With a task in the queue: dequeue it, decrement
    [queueSize] and [idleWorkerCount]. *)
Definition threadFunc_step (threadid : Z) (idle_expired : bool)
  (p : ThreadPool) : worker_outcome * ThreadPool :=
  match queue_pop (taskQue_ p) with
  | None =>
      if negb (isPoolRunning_ p) then
        (Exited,
         mkThreadPool (delete threadid (threads_ p)) (initThreadSize_ p)
           (threadSizeThreshHold_ p) (int_wrap (curThreadSize_ p - 1))
           (idleThreadSize_ p) (taskQue_ p) (taskSize_ p)
           (taskQueMaxThreshHold_ p) (poolMode_ p) (isPoolRunning_ p))
      else
        match poolMode_ p with
        | MODE_CACHED =>
            if (initThreadSize_ p <? curThreadSize_ p) && idle_expired then
              (Exited,
               mkThreadPool (delete threadid (threads_ p)) (initThreadSize_ p)
                 (threadSizeThreshHold_ p) (int_wrap (curThreadSize_ p - 1))
                 (int_wrap (idleThreadSize_ p - 1)) (taskQue_ p) (taskSize_ p)
                 (taskQueMaxThreshHold_ p) (poolMode_ p) (isPoolRunning_ p))
            else (Waiting, p)
        | MODE_FIXED => (Waiting, p)
        end
  | Some (sp, que) =>
      (Took sp,
       mkThreadPool (threads_ p) (initThreadSize_ p) (threadSizeThreshHold_ p)
         (curThreadSize_ p) (int_wrap (idleThreadSize_ p - 1)) que
         (int_wrap (taskSize_ p - 1)) (taskQueMaxThreshHold_ p) (poolMode_ p)
         (isPoolRunning_ p))
  end.

(** Modelled from the spec: section 4.5.4, step 7 and the idle accounting: a
    worker increments [idleWorkerCount] when it goes to wait for a task. *)
Definition threadFunc_idle (p : ThreadPool) : ThreadPool :=
  mkThreadPool (threads_ p) (initThreadSize_ p) (threadSizeThreshHold_ p)
    (curThreadSize_ p) (int_wrap (idleThreadSize_ p + 1)) (taskQue_ p)
    (taskSize_ p) (taskQueMaxThreshHold_ p) (poolMode_ p) (isPoolRunning_ p).

(** ** Runs of a pool *)

(** The operations on one pool; each is one critical section. *)
Inductive pool_event :=
  | EvSetMode (mode : PoolMode)
  | EvSetTaskQueMax (threshhold : Z)
  | EvSetThreadMax (threshhold : Z)
  | EvStart (initThreadSize : Z)
  | EvSubmit (sp : Task)
  | EvWorker (threadid : Z) (idle_expired : bool)
  | EvIdle.

(** What the caller of an operation gets back. *)
Inductive pool_obs :=
  | ObsVoid (r : pool_error + unit)
  | ObsResult (r : pool_error + Result)
  | ObsWorker (o : worker_outcome).

(** One operation on pool [p] in a process whose static counter is
    [generateId_]. *)
Definition pool_step (e : pool_event) (generateId_ : Z) (p : ThreadPool)
  : pool_obs * (Z * ThreadPool) :=
  match e with
  | EvSetMode mode =>
      let '(r, p') := setMode mode p in (ObsVoid r, (generateId_, p'))
  | EvSetTaskQueMax n =>
      let '(r, p') := setTaskQueMaxThreshHold n p in
      (ObsVoid r, (generateId_, p'))
  | EvSetThreadMax n =>
      let '(r, p') := setThreadSizeThreshHold n p in
      (ObsVoid r, (generateId_, p'))
  | EvStart k => let '(r, st) := start k generateId_ p in (ObsVoid r, st)
  | EvSubmit sp =>
      let '(r, st) := submitTask_after_wait sp generateId_ p in
      (ObsResult r, st)
  | EvWorker threadid idle_expired =>
      let '(o, p') := threadFunc_step threadid idle_expired p in
      (ObsWorker o, (generateId_, p'))
  | EvIdle => (ObsVoid (inr tt), (generateId_, threadFunc_idle p))
  end.

(** Runs a schedule of operations; returns what each caller got back. *)
Fixpoint pool_run (tr : list pool_event) (generateId_ : Z) (p : ThreadPool)
  : list pool_obs * (Z * ThreadPool) :=
  match tr with
  | [] => ([], (generateId_, p))
  | e :: tr' =>
      let '(o, (g1, p1)) := pool_step e generateId_ p in
      let '(os, st) := pool_run tr' g1 p1 in
      (o :: os, st)
  end.

(** The tasks whose submission returned a valid handle, in the order of the
    submissions. *)
Fixpoint accepted (tr : list pool_event) (os : list pool_obs) : list Task :=
  match tr, os with
  | EvSubmit sp :: tr', ObsResult (inr h) :: os' =>
      if isValid_ h then sp :: accepted tr' os' else accepted tr' os'
  | _ :: tr', _ :: os' => accepted tr' os'
  | _, _ => []
  end.

(** The tasks handed to workers, in the order the workers took them. *)
Fixpoint delivered (os : list pool_obs) : list Task :=
  match os with
  | [] => []
  | ObsWorker (Took sp) :: os' => sp :: delivered os'
  | _ :: os' => delivered os'
  end.

End ThreadPool.

Arguments Result {R} Task.
Arguments ThreadPool Task : clear implicits.


Definition empty_pool : ThreadPool nat :=
  mkThreadPool (<[0 := mkThread 0]> ∅) 1 1 1 1 [] 0 2 MODE_FIXED true.

(** * Properties *)

Section Properties.
Context {R : Rtti} {Task : Type}.

(** ** Any *)

Lemma dynamic_cast_same (T : cpp_type) (v : payload T) :
  dynamic_cast_Derive T (Some (Derive T v)) = Some v.
Proof.
  simpl. destruct (decide (T = T)) as [e|ne]; [|contradiction].
  by rewrite (proof_irrel e eq_refl).
Qed.

Lemma dynamic_cast_other (T T' : cpp_type) (v : payload T) :
  T' ≠ T → dynamic_cast_Derive T' (Some (Derive T v)) = None.
Proof.
  intros ne. simpl. destruct (decide (T = T')) as [e|_]; [|done].
  by destruct ne.
Qed.

Lemma cast_keeps_object (T : cpp_type) (a : Any) : snd (cast_ T a) = a.
Proof. unfold cast_. by destruct (dynamic_cast_Derive T (base_ a)). Qed.

Lemma cast_Any_of (T : cpp_type) (v : payload T) :
  cast_ T (Any_of T v) = (inr v, Any_of T v).
Proof. unfold cast_, Any_of. cbn [base_]. by rewrite dynamic_cast_same. Qed.

(** C1: constructing an [Any] from a payload [v] of type [T] and extracting
    with the same [T] returns [v]. *)
Theorem Any_roundtrip (T : cpp_type) (v : payload T) :
  fst (cast_ T (Any_of T v)) = inr v.
Proof. by rewrite cast_Any_of. Qed.

(** C2: on an [Any] constructed with payload type [T], [cast_<T'>] returns a
    value if and only if [T' = T], the value is then the payload, and when the
    types differ it throws the type-mismatch error. *)
Theorem cast_succeeds_iff_same_type (T T' : cpp_type) (v : payload T) :
  ((∃ v', fst (cast_ T' (Any_of T v)) = inr v') ↔ T' = T) ∧
  (∀ e : T = T', fst (cast_ T' (Any_of T v)) = inr (eq_rect T payload v T' e)) ∧
  (T' ≠ T → fst (cast_ T' (Any_of T v)) = inl TypeMismatch).
Proof.
  assert (Hne : T' ≠ T → fst (cast_ T' (Any_of T v)) = inl TypeMismatch).
  { intros ne. unfold cast_, Any_of. cbn [base_].
    by rewrite dynamic_cast_other. }
  split; [|split; [|exact Hne]].
  - split.
    + intros [v' Hv']. destruct (decide (T' = T)) as [|ne]; [done|].
      rewrite (Hne ne) in Hv'. discriminate.
    + intros ->. exists v. by rewrite cast_Any_of.
  - intros e. destruct e. by rewrite cast_Any_of.
Qed.

(** C6, as the code has it: [cast_<T>] leaves the [Any] as it was, so after a
    successful [cast_<T>] the object still holds the payload and a second
    [cast_<T>] yields the same payload again. *)
Theorem cast_does_not_consume (T : cpp_type) (v : payload T) :
  snd (cast_ T (Any_of T v)) = Any_of T v ∧
  fst (cast_ T (snd (cast_ T (Any_of T v)))) = inr v ∧
  ∀ (T' : cpp_type) (a : Any), snd (cast_ T' a) = a.
Proof.
  split; [apply cast_keeps_object|]. split; [|apply cast_keeps_object].
  rewrite cast_Any_of. cbn [snd]. by rewrite cast_Any_of.
Qed.

(** C10: extracting any type from an empty [Any] (null [base_]:
    default-constructed or moved-from) throws the type-mismatch error; the
    downcast of the null pointer is null, so the error branch is taken. *)
Theorem cast_empty_throws (T : cpp_type) :
  dynamic_cast_Derive T None = None ∧
  cast_ T Any_default = (inl TypeMismatch, Any_default) ∧
  (∀ a : Any, fst (cast_ T (snd (Any_move a))) = inl TypeMismatch) ∧
  (∀ a : Any, base_ a = None → cast_ T a = (inl TypeMismatch, a)).
Proof.
  repeat split; try done.
  intros a Ha. unfold cast_. by rewrite Ha.
Qed.

(** ** Semaphore *)

Lemma wait_test_spec (t : nat) (s : Semaphore) :
  (0 < resLimit_ s ∧
   wait_test t s =
     (mkSemaphore (resLimit_ s - 1) (cond_ s ∖ {[t]}) (notified s ∖ {[t]}),
      Returned)) ∨
  (resLimit_ s ≤ 0 ∧
   wait_test t s =
     (mkSemaphore (resLimit_ s) (cond_ s ∪ {[t]}) (notified s ∖ {[t]}),
      Blocked)).
Proof.
  unfold wait_test, wait_pred.
  destruct (Z.ltb_spec 0 (resLimit_ s)); [left|right]; done.
Qed.

Lemma sem_step_count (s s' : Semaphore) (e : sem_event) (ret : bool) :
  sem_step s e = Some (s', ret) →
  resLimit_ s' =
    resLimit_ s + (if e is CallPost then 1 else 0) - (if ret then 1 else 0) ∧
  (0 ≤ resLimit_ s → 0 ≤ resLimit_ s').
Proof.
  destruct e as [t|t|t|]; simpl.
  - destruct (decide _); [done|].
    destruct (wait_test_spec t s) as [[Hc ->]|[Hc ->]];
      intros [= <- <-]; simpl; lia.
  - destruct (decide _); [|done].
    destruct (wait_test_spec t s) as [[Hc ->]|[Hc ->]];
      intros [= <- <-]; simpl; lia.
  - destruct (decide _); [|done]. intros [= <- <-]; simpl; lia.
  - unfold post. destruct (resLimit_ s <? INT_MAX); [|done].
    simpl. intros [= <- <-]; simpl; lia.
Qed.

Lemma sem_run_count (tr : list sem_event) :
  ∀ (s0 s : Semaphore) (m : nat),
    sem_run s0 tr = Some (s, m) →
    resLimit_ s = resLimit_ s0 + Z.of_nat (posts tr) - Z.of_nat m ∧
    (0 ≤ resLimit_ s0 → 0 ≤ resLimit_ s).
Proof.
  induction tr as [|e tr IH]; intros s0 s m; simpl.
  - intros [= <- <-]. lia.
  - destruct (sem_step s0 e) as [[s1 ret]|] eqn:Hstep; [|done]. simpl.
    destruct (sem_run s1 tr) as [[s2 m']|] eqn:Hrun; [|done]. simpl.
    intros [= <- <-].
    destruct (sem_step_count _ _ _ _ Hstep) as [Hc Hpos].
    destruct (IH _ _ _ Hrun) as [Hc' Hpos'].
    split; [|tauto].
    rewrite Hc', Hc. destruct e, ret; simpl posts; lia.
Qed.

Lemma sem_reachable_nonneg (s : Semaphore) :
  sem_reachable s → 0 ≤ resLimit_ s.
Proof.
  intros (tr & m & Hrun). apply sem_run_count in Hrun as [_ H].
  apply H. done.
Qed.

(** C3: the semaphore starts at 0; a pass through [wait()] blocks exactly when
    the count is 0 and otherwise returns with the count decremented by one;
    [post()] increments the count by one and wakes every sleeping thread;
    after [n] posts and [m] completed waits the count is [n - m]; a call of
    [wait()] right after a [post()] returns without blocking. *)
Theorem semaphore_counts :
  resLimit_ Semaphore_default = 0 ∧
  (∀ s t, sem_reachable s →
     (snd (wait_test t s) = Blocked ↔ resLimit_ s = 0) ∧
     (snd (wait_test t s) = Blocked →
        resLimit_ (fst (wait_test t s)) = resLimit_ s ∧
        t ∈ cond_ (fst (wait_test t s))) ∧
     (snd (wait_test t s) = Returned →
        resLimit_ (fst (wait_test t s)) = resLimit_ s - 1)) ∧
  (∀ s, resLimit_ s < INT_MAX →
     ∃ s', post s = Some s' ∧ resLimit_ s' = resLimit_ s + 1 ∧
           cond_ s' = ∅ ∧ notified s' = notified s ∪ cond_ s) ∧
  (∀ tr s m, sem_run Semaphore_default tr = Some (s, m) →
     resLimit_ s = Z.of_nat (posts tr) - Z.of_nat m) ∧
  (∀ s t, sem_reachable s → resLimit_ s < INT_MAX →
     t ∉ cond_ s ∪ notified s →
     ∃ s1 s2, sem_step s CallPost = Some (s1, false) ∧
              sem_step s1 (CallWait t) = Some (s2, true) ∧
              resLimit_ s2 = resLimit_ s).
Proof.
  split; [done|]. split; [|split; [|split]].
  - intros s t Hs. apply sem_reachable_nonneg in Hs.
    destruct (wait_test_spec t s) as [[Hc ->]|[Hc ->]]; simpl.
    + repeat split; try done; lia.
    + repeat split; try done; try lia. set_solver.
  - intros s Hs. unfold post.
    destruct (Z.ltb_spec (resLimit_ s) INT_MAX); [|lia]. eauto.
  - intros tr s m Hrun. apply sem_run_count in Hrun as [-> _]. simpl. lia.
  - intros s t Hs Hmax Ht. apply sem_reachable_nonneg in Hs.
    simpl. unfold post.
    destruct (Z.ltb_spec (resLimit_ s) INT_MAX); [|lia]. simpl.
    eexists _, _. split; [done|].
    destruct (decide _) as [Hin|_]; [exfalso; apply Ht; set_unfold in Hin; set_unfold; tauto|].
    unfold wait_test, wait_pred. simpl.
    destruct (Z.ltb_spec 0 (resLimit_ s + 1)); [|lia].
    split; [done|]. simpl. lia.
Qed.

(** ** ThreadPool: submission *)

(** Unfolds one pool operation into its branches. *)
Ltac pool_cases :=
  unfold pool_step, setMode, setTaskQueMaxThreshHold, setThreadSizeThreshHold,
    start, submitTask_after_wait, threadFunc_step, threadFunc_idle,
    Thread_new, queue_pop, queue_push, checkRunningState in *;
  repeat case_match; simplify_eq/=.

Lemma wait_notFull_spec (env : nat → ThreadPool Task) (budget : nat) :
  ∀ elapsed waited p,
    wait_notFull budget elapsed env = (waited, p) →
    p = env waited ∧
    (elapsed ≤ waited ≤ elapsed + budget)%nat ∧
    (∀ t, (elapsed ≤ t < waited)%nat → notFull_pred (env t) = false) ∧
    (notFull_pred p = false → waited = (elapsed + budget)%nat).
Proof.
  induction budget as [|b IH]; intros elapsed waited p; simpl.
  - destruct (notFull_pred (env elapsed)) eqn:Hp; intros [= <- <-];
      (repeat split; [lia|lia|intros; lia|congruence || lia]).
  - destruct (notFull_pred (env elapsed)) eqn:Hp.
    + intros [= <- <-].
      repeat split; [lia|lia|intros; lia|congruence].
    + intros Hw. apply IH in Hw as (-> & Hle & Hfull & Hend).
      repeat split; [lia|lia| |intros; lia || (rewrite Hend by done; lia)].
      intros t Ht. destruct (decide (t = elapsed)) as [->|]; [done|].
      apply Hfull. lia.
Qed.

Lemma submitTask_after_wait_spec (sp : Task) (g : Z) (p : ThreadPool Task) :
  ∃ (h : Result Task) g' p',
    submitTask_after_wait sp g p = (inr h, (g', p')) ∧
    task_ h = sp ∧
    isValid_ h = notFull_pred p ∧
    (isValid_ h = true → taskQue_ p' = queue_push sp (taskQue_ p)) ∧
    (isValid_ h = false → p' = p ∧ g' = g).
Proof.
  unfold submitTask_after_wait.
  destruct (notFull_pred p); simpl;
    try (eexists _, _, _; split; [reflexivity|]; simpl; by repeat split).
  destruct (must_grow _ _ _ _ _); simpl;
    eexists _, _, _; (split; [reflexivity|]); simpl; by repeat split.
Qed.

Lemma queue_push_neq (sp : Task) (q : list Task) : queue_push sp q ≠ q.
Proof.
  unfold queue_push. intros H. apply (f_equal length) in H.
  rewrite length_app in H. simpl in H. lia.
Qed.


(** C5: the handle [submitTask] returns is valid if and only if the task was
    enqueued; [get] on an invalid handle returns an empty [Any] at once and
    leaves the semaphore alone, whereas on a valid handle whose semaphore is
    at 0 it blocks. *)
Theorem handle_valid_iff_enqueued :
  (∀ (sp : Task) g env waited r g' p',
     submitTask sp g env = (waited, (r, (g', p'))) →
     ∃ h : Result Task, r = inr h ∧
       (isValid_ h = true ↔
        taskQue_ p' = queue_push sp (taskQue_ (env waited))) ∧
       (isValid_ h = false → taskQue_ p' = taskQue_ (env waited))) ∧
  (∀ t (r : Result Task), isValid_ r = false →
     get t r = (GetReturned Any_default, r)) ∧
  (∀ t (r : Result Task), isValid_ r = true → resLimit_ (sem_ r) ≤ 0 →
     fst (get t r) = GetBlocked).
Proof.
  split; [|split].
  - intros sp g env waited r g' p'. unfold submitTask.
    destruct (wait_notFull SUBMIT_TIMEOUT 0 env) as [w p] eqn:Hw.
    apply wait_notFull_spec in Hw as (-> & _).
    destruct (submitTask_after_wait_spec sp g (env w))
      as (h & g1 & p1 & -> & _ & _ & Hyes & Hno).
    intros [= <- <- <- <-]. exists h. split; [done|].
    split; [|by intros [-> _]%Hno].
    split; [done|]. intros Hq. destruct (isValid_ h); [done|].
    destruct Hno as [-> _]; [done|]. by apply eq_sym, queue_push_neq in Hq.
  - intros t r Hr. unfold get. by rewrite Hr.
  - intros t r Hr Hc. unfold get, get_test. rewrite Hr. simpl.
    destruct (wait_test_spec t (sem_ r)) as [[Hc' _]|[_ ->]]; [lia|done].
Qed.

(** A value stored by the worker is the value the submitter receives, and the
    slot is empty afterwards. *)
Lemma get_after_setVal (t : nat) (sp : Task) (v : Any) (r : Result Task) :
  setVal v (Result_new sp true) = Some r →
  fst (get t r) = GetReturned v ∧ any_ (snd (get t r)) = Any_default.
Proof.
  destruct v as [b]. unfold setVal, Result_new, post. simpl.
  intros [= <-]. done.
Qed.

(** ** ThreadPool: configuration after start *)

Lemma pool_step_keeps_running (e : pool_event) (g : Z) (p : ThreadPool Task) :
  isPoolRunning_ p = true →
  isPoolRunning_ (snd (snd (pool_step e g p))) = true.
Proof. intros Hrun. destruct e; pool_cases; congruence. Qed.

Lemma pool_run_keeps_running (tr : list pool_event) :
  ∀ g (p : ThreadPool Task),
    isPoolRunning_ p = true →
    isPoolRunning_ (snd (snd (pool_run tr g p))) = true.
Proof.
  induction tr as [|e tr IH]; intros g p Hrun; simpl; [done|].
  pose proof (pool_step_keeps_running e g p Hrun) as H1.
  destruct (pool_step e g p) as [o [g1 p1]]. simpl in H1.
  specialize (IH g1 p1 H1).
  by destruct (pool_run tr g1 p1) as [os st].
Qed.

Lemma start_sets_running (k g g1 : Z) (p p1 : ThreadPool Task) :
  start k g p = (inr tt, (g1, p1)) → isPoolRunning_ p1 = true.
Proof. intros H. pool_cases. done. Qed.

(** C7: once [start] has succeeded, and after any further operations on the
    pool, each of the three configuration setters raises [AlreadyRunning] and
    leaves the pool, hence its configuration, as it was. *)
Theorem setters_reject_after_start
  (k g g1 : Z) (p p1 : ThreadPool Task) (tr : list pool_event) :
  start k g p = (inr tt, (g1, p1)) →
  let p2 := snd (snd (pool_run tr g1 p1)) in
  (∀ mode, setMode mode p2 = (inl AlreadyRunning, p2)) ∧
  (∀ n, setTaskQueMaxThreshHold n p2 = (inl AlreadyRunning, p2)) ∧
  (∀ n, setThreadSizeThreshHold n p2 = (inl AlreadyRunning, p2)).
Proof.
  intros Hstart p2.
  assert (Hrun : isPoolRunning_ p2 = true).
  { apply pool_run_keeps_running. by eapply start_sets_running. }
  unfold setMode, setTaskQueMaxThreshHold, setThreadSizeThreshHold,
    checkRunningState.
  by rewrite Hrun.
Qed.

(** ** ThreadPool: order of delivery *)

Lemma pool_step_queue (e : pool_event) (g : Z) (p : ThreadPool Task) :
  taskQue_ p ++ accepted (R := R) [e] [fst (pool_step e g p)]
  = delivered (R := R) [fst (pool_step e g p)]
    ++ taskQue_ (snd (snd (pool_step e g p))).
Proof.
  destruct e; pool_cases; rewrite ?app_nil_r; try done.
  all: try match goal with H : create_threads _ _ _ = _ |- _ => clear H end.
  all: try done.
Qed.

Lemma accepted_cons (e : pool_event) (o : pool_obs) tr os :
  accepted (R := R) (Task := Task) (e :: tr) (o :: os)
  = accepted [e] [o] ++ accepted tr os.
Proof.
  destruct e; simpl; try done.
  destruct o as [r|[err|h]|w]; simpl; try done.
  by destruct (isValid_ h).
Qed.

Lemma delivered_cons (o : pool_obs) os :
  delivered (R := R) (Task := Task) (o :: os) = delivered [o] ++ delivered os.
Proof. destruct o as [r|r|[sp| |]]; done. Qed.

Lemma pool_run_queue (tr : list pool_event) :
  ∀ g (p : ThreadPool Task),
    taskQue_ p ++ accepted (R := R) tr (fst (pool_run tr g p))
    = delivered (R := R) (fst (pool_run tr g p))
      ++ taskQue_ (snd (snd (pool_run tr g p))).
Proof.
  induction tr as [|e tr IH]; intros g p; cbn [pool_run].
  - simpl. by rewrite app_nil_r.
  - pose proof (pool_step_queue e g p) as H1.
    destruct (pool_step e g p) as [o [g1 p1]]. cbn [fst snd] in H1.
    specialize (IH g1 p1).
    destruct (pool_run tr g1 p1) as [os st]. cbn [fst snd] in *.
    rewrite accepted_cons, delivered_cons.
    by rewrite app_assoc, H1, <- !app_assoc, IH.
Qed.

(** C8: tasks reach the workers in the order of their submission.  In any
    run, the tasks waiting at the beginning followed by the tasks accepted
    are the tasks delivered followed by the tasks still waiting; so from an
    empty queue the delivered tasks are a prefix of the accepted ones, and
    when [Y] was accepted after [X] and [Y] has been delivered, [X] was
    delivered before [Y]. *)
Theorem fifo_delivery (tr : list pool_event) (g : Z) (p : ThreadPool Task) :
  let os := fst (pool_run (R := R) tr g p) in
  let p' := snd (snd (pool_run (R := R) tr g p)) in
  taskQue_ p ++ accepted tr os = delivered os ++ taskQue_ p' ∧
  (taskQue_ p = [] →
   accepted tr os = delivered os ++ taskQue_ p' ∧
   (∀ k sp, delivered os !! k = Some sp → accepted tr os !! k = Some sp) ∧
   (∀ i j j' X Y,
      NoDup (accepted tr os) →
      accepted tr os !! i = Some X → accepted tr os !! j = Some Y →
      (i < j)%nat → delivered os !! j' = Some Y →
      ∃ i', (i' < j')%nat ∧ delivered os !! i' = Some X)).
Proof.
  intros os p'. pose proof (pool_run_queue tr g p) as Hq.
  fold os p' in Hq. split; [done|].
  intros Hempty. rewrite Hempty in Hq. simpl in Hq.
  assert (Hpre : ∀ k sp, delivered os !! k = Some sp →
                         accepted tr os !! k = Some sp).
  { intros k sp Hk. rewrite Hq. by apply lookup_app_l_Some. }
  split; [done|]. split; [done|].
  intros i j j' X Y Hnd Hi Hj Hij Hj'.
  assert (j' = j) as ->.
  { eapply NoDup_lookup; [exact Hnd| |exact Hj]. by apply Hpre. }
  exists i. split; [done|].
  apply lookup_lt_Some in Hj'.
  rewrite Hq, lookup_app_l in Hi by lia. done.
Qed.

(** ** More on Any *)

Lemma cast_inr_inv (T : cpp_type) (a : Any) (v : payload T) :
  fst (cast_ T a) = inr v → base_ a = Some (Derive T v).
Proof.
  unfold cast_. destruct (base_ a) as [[T' d]|]; simpl; [|done].
  destruct (decide (T' = T)) as [e|ne]; simpl; [|done].
  destruct e. simpl. by intros [= ->].
Qed.

Lemma cast_holding (T : cpp_type) (a : Any) (v : payload T) :
  base_ a = Some (Derive T v) → fst (cast_ T a) = inr v.
Proof. intros Ha. unfold cast_. by rewrite Ha, dynamic_cast_same. Qed.

Lemma move_dest_base (n : nat) (a : Any) :
  base_ (Nat.iter n (λ x, fst (Any_move x)) a) = base_ a.
Proof. induction n as [|n IH]; simpl; done. Qed.

(** X1: a payload survives any number of moves: after constructing an [Any]
    from [v] and moving it [n] times from object to object, [cast_<T>] on the
    last destination returns [v], and the object a move took it from is left
    empty and throws. *)
Theorem Any_move_chain (T : cpp_type) (v : payload T) (n : nat) :
  fst (cast_ T (Nat.iter n (λ x, fst (Any_move x)) (Any_of T v))) = inr v ∧
  ∀ k T',
    base_ (snd (Any_move (Nat.iter k (λ x, fst (Any_move x)) (Any_of T v))))
      = None ∧
    fst (cast_ T'
           (snd (Any_move (Nat.iter k (λ x, fst (Any_move x)) (Any_of T v)))))
      = inl TypeMismatch.
Proof.
  split.
  - apply cast_holding. by rewrite move_dest_base.
  - done.
Qed.

(** X2: [cast_<T>] returns [v] exactly when the [Any] holds a [Derive<T>]
    whose [data_] is [v]. *)
Theorem cast_returns_iff_holds (T : cpp_type) (a : Any) (v : payload T) :
  fst (cast_ T a) = inr v ↔ base_ a = Some (Derive T v).
Proof. split; [apply cast_inr_inv|apply cast_holding]. Qed.

(** X3: [cast_<T>] throws exactly when the [Any] is empty or holds a payload
    of another type, and the only value it ever throws is the C string
    "type is unmatch!". *)
Theorem cast_throws_iff (T : cpp_type) (a : Any) :
  ((∃ e, fst (cast_ T a) = inl e) ↔
   (base_ a = None ∨
    ∃ T' (d : payload T'), base_ a = Some (Derive T' d) ∧ T' ≠ T)) ∧
  (∀ e, fst (cast_ T a) = inl e → e = TypeMismatch).
Proof.
  unfold cast_. destruct (base_ a) as [[T' d]|]; simpl.
  - destruct (decide (T' = T)) as [e|ne]; simpl.
    + split; [|done]. split; [by intros [? ?]|].
      intros [?|(T2 & d2 & [= <- _] & ne)]; done.
    + split; [|by intros ? [= <-]]. split; [|eauto].
      intros _. right. eauto.
  - split; [|by intros ? [= <-]]. split; eauto.
Qed.

(** X4: an [Any] holds a payload of at most one type: if [cast_<T>] and
    [cast_<T'>] both return, then [T = T']; and a non-empty [Any] has a type
    at which [cast_] returns. *)
Theorem Any_holds_one_type (a : Any) :
  (∀ T T' (v : payload T) (v' : payload T'),
     fst (cast_ T a) = inr v → fst (cast_ T' a) = inr v' → T = T') ∧
  (base_ a ≠ None → ∃ T (v : payload T), fst (cast_ T a) = inr v).
Proof.
  split.
  - intros T T' v v' H1%cast_inr_inv H2%cast_inr_inv.
    rewrite H1 in H2. by injection H2.
  - destruct a as [[[T d]|]]; simpl; [|done].
    intros _. exists T, d. by apply cast_holding.
Qed.

(** ** More on Semaphore *)

Lemma sem_step_ret_nonneg (s s' : Semaphore) (e : sem_event) :
  sem_step s e = Some (s', true) → 0 ≤ resLimit_ s'.
Proof.
  destruct e as [t|t|t|]; simpl.
  - destruct (decide _); [done|].
    destruct (wait_test_spec t s) as [[Hc ->]|[Hc ->]];
      intros [= <-]; simpl; lia.
  - destruct (decide _); [|done].
    destruct (wait_test_spec t s) as [[Hc ->]|[Hc ->]];
      intros [= <-]; simpl; lia.
  - by destruct (decide _).
  - by destruct (post s).
Qed.

Lemma sem_run_ret_nonneg (tr : list sem_event) :
  ∀ (s0 s : Semaphore) (m : nat),
    sem_run s0 tr = Some (s, m) → (0 < m)%nat → 0 ≤ resLimit_ s.
Proof.
  induction tr as [|e tr IH]; intros s0 s m; simpl.
  - intros [= <- <-]. lia.
  - destruct (sem_step s0 e) as [[s1 ret]|] eqn:Hstep; [|done]. simpl.
    destruct (sem_run s1 tr) as [[s2 m']|] eqn:Hrun; [|done]. simpl.
    intros [= <- <-] Hm. destruct ret.
    + apply sem_step_ret_nonneg in Hstep.
      by apply (sem_run_count _ _ _ _ Hrun).
    + apply (IH _ _ _ Hrun). simpl in Hm. lia.
Qed.

(** X5: for a semaphore constructed with any [limit], after a run with [n]
    posts and [m] returned waits the count is [limit + n - m], and the waits
    that returned never exceed the resources made available:
    [m <= max 0 (limit + n)]. *)
Theorem semaphore_conservation
  (limit : Z) (tr : list sem_event) (s : Semaphore) (m : nat) :
  sem_run (Semaphore_new limit) tr = Some (s, m) →
  resLimit_ s = limit + Z.of_nat (posts tr) - Z.of_nat m ∧
  Z.of_nat m ≤ Z.max 0 (limit + Z.of_nat (posts tr)).
Proof.
  intros Hrun. pose proof (sem_run_count _ _ _ _ Hrun) as [Hc _].
  simpl in Hc. split; [done|].
  destruct m as [|m]; [lia|].
  pose proof (sem_run_ret_nonneg _ _ _ _ Hrun). lia.
Qed.

Lemma sem_step_no_lost_wakeup (s s' : Semaphore) (e : sem_event) (ret : bool) :
  sem_step s e = Some (s', ret) → no_lost_wakeup s → no_lost_wakeup s'.
Proof.
  unfold no_lost_wakeup. destruct e as [t|t|t|]; simpl.
  - destruct (decide _); [done|].
    destruct (wait_test_spec t s) as [[Hc ->]|[Hc ->]];
      intros [= <- <-] Hinv u Hu; simpl in *; [|lia].
    assert (resLimit_ s ≤ 0); [|lia].
    apply (Hinv u). set_unfold in Hu. tauto.
  - destruct (decide _); [|done].
    destruct (wait_test_spec t s) as [[Hc ->]|[Hc ->]];
      intros [= <- <-] Hinv u Hu; simpl in *; [|lia].
    assert (resLimit_ s ≤ 0); [|lia].
    apply (Hinv u). set_unfold in Hu. tauto.
  - destruct (decide _); [|done].
    intros [= <- <-] Hinv u Hu; simpl in *.
    apply (Hinv u). set_unfold in Hu. tauto.
  - unfold post. destruct (resLimit_ s <? INT_MAX); [|done]. simpl.
    intros [= <- <-] _ u Hu. simpl in Hu. set_unfold in Hu. tauto.
Qed.

Lemma sem_run_no_lost_wakeup (tr : list sem_event) :
  ∀ (s0 s : Semaphore) (m : nat),
    sem_run s0 tr = Some (s, m) → no_lost_wakeup s0 → no_lost_wakeup s.
Proof.
  induction tr as [|e tr IH]; intros s0 s m; simpl.
  - by intros [= <- <-].
  - destruct (sem_step s0 e) as [[s1 ret]|] eqn:Hstep; [|done]. simpl.
    destruct (sem_run s1 tr) as [[s2 m']|] eqn:Hrun; [|done]. simpl.
    intros [= <- <-] Hinv. apply (IH _ _ _ Hrun).
    by eapply sem_step_no_lost_wakeup.
Qed.

(** X6: no wake-up is lost: in every state a semaphore constructed with any
    [limit] can reach, a thread is asleep on the condition variable only
    while the count is not positive. *)
Theorem semaphore_no_lost_wakeup
  (limit : Z) (tr : list sem_event) (s : Semaphore) (m : nat) (t : nat) :
  sem_run (Semaphore_new limit) tr = Some (s, m) →
  t ∈ cond_ s → resLimit_ s ≤ 0.
Proof.
  intros Hrun Ht. apply (sem_run_no_lost_wakeup _ _ _ _ Hrun) with t; [|done].
  intros u Hu. simpl in Hu. set_unfold in Hu. tauto.
Qed.

Lemma sem_run_waits (ts : list nat) :
  ∀ s0 : Semaphore,
    NoDup ts →
    (∀ t, t ∈ ts → t ∉ cond_ s0 ∪ notified s0) →
    0 ≤ resLimit_ s0 →
    ∃ s, sem_run s0 (CallWait <$> ts)
         = Some (s, Z.to_nat (Z.min (resLimit_ s0) (Z.of_nat (length ts)))) ∧
         resLimit_ s = Z.max 0 (resLimit_ s0 - Z.of_nat (length ts)).
Proof.
  induction ts as [|t ts IH]; intros s0 Hnd Hout Hc.
  - exists s0. simpl. split; [f_equal; f_equal; lia|lia].
  - apply NoDup_cons in Hnd as [Ht Hnd]. cbn [fmap list_fmap sem_run sem_step].
    destruct (decide _) as [Hin|_].
    { exfalso. by apply (Hout t); [left|]. }
    destruct (wait_test_spec t s0) as [[Hpos ->]|[Hneg ->]].
    + destruct (IH (mkSemaphore (resLimit_ s0 - 1) (cond_ s0 ∖ {[t]})
                      (notified s0 ∖ {[t]}))) as (s & Hrun & Hs);
        [done| |simpl; lia|].
      { intros u Hu. simpl. pose proof (Hout u (list_elem_of_further _ _ _ Hu)).
        set_unfold. tauto. }
      exists s. simpl in *. fold (fmap (M := list) CallWait ts).
      rewrite Hrun. simpl. split; [|lia]. f_equal. f_equal. lia.
    + destruct (IH (mkSemaphore (resLimit_ s0) (cond_ s0 ∪ {[t]})
                      (notified s0 ∖ {[t]}))) as (s & Hrun & Hs);
        [done| |simpl; lia|].
      { intros u Hu. simpl. pose proof (Hout u (list_elem_of_further _ _ _ Hu)).
        assert (u ≠ t) by (intros ->; done).
        set_unfold. tauto. }
      exists s. simpl in *. fold (fmap (M := list) CallWait ts).
      rewrite Hrun. simpl. split; [|lia]. f_equal. f_equal. lia.
Qed.

(** X7: a semaphore constructed with [limit >= 0] admits exactly [limit]
    waits: when distinct threads call [wait()] one after the other and nobody
    posts, the first [limit] calls return and all later ones block. *)
Theorem semaphore_admits_limit (limit : Z) (ts : list nat) :
  0 ≤ limit → NoDup ts →
  ∃ s, sem_run (Semaphore_new limit) (CallWait <$> ts)
       = Some (s, Z.to_nat (Z.min limit (Z.of_nat (length ts)))) ∧
       resLimit_ s = Z.max 0 (limit - Z.of_nat (length ts)).
Proof.
  intros Hl Hnd.
  apply (sem_run_waits ts (Semaphore_new limit)); [done| |done].
  intros t _. simpl. set_unfold. tauto.
Qed.

Lemma sem_run_posts (k : nat) :
  ∀ s0 : Semaphore,
    resLimit_ s0 + Z.of_nat k ≤ INT_MAX →
    ∃ s, sem_run s0 (replicate k CallPost) = Some (s, 0%nat) ∧
         resLimit_ s = resLimit_ s0 + Z.of_nat k.
Proof.
  induction k as [|k IH]; intros s0 Hb.
  - exists s0. split; [done|lia].
  - cbn [replicate sem_run sem_step]. unfold post at 1.
    destruct (Z.ltb_spec (resLimit_ s0) INT_MAX); [|lia]. simpl.
    destruct (IH (mkSemaphore (resLimit_ s0 + 1) ∅ (notified s0 ∪ cond_ s0)))
      as (s & Hrun & Hs); [simpl; lia|].
    exists s. rewrite Hrun. simpl in *. split; [done|lia].
Qed.

(** X8: the constructor accepts any [limit], also a negative one: after [k]
    posts on a fresh [Semaphore(limit)] the count is [limit + k], and a call
    of [wait()] then returns if and only if [limit + k > 0]; so with a
    negative limit the first [-limit] posts release nobody. *)
Theorem semaphore_negative_limit (limit : Z) (k t : nat) :
  limit + Z.of_nat k ≤ INT_MAX →
  ∃ s, sem_run (Semaphore_new limit) (replicate k CallPost) = Some (s, 0%nat) ∧
       resLimit_ s = limit + Z.of_nat k ∧
       (snd (wait_test t s) = Returned ↔ 0 < limit + Z.of_nat k).
Proof.
  intros Hb. destruct (sem_run_posts k (Semaphore_new limit)) as (s & Hrun & Hs);
    [done|].
  exists s. simpl in Hs. split; [done|]. split; [done|].
  destruct (wait_test_spec t s) as [[Hc ->]|[Hc ->]]; simpl;
    (split; [try done; lia|try done; lia]).
Qed.

(** X9: [post()] stays clear of the signed overflow: in every state reached
    from [Semaphore(limit)] by a run whose posts, added to [limit], stay below
    [INT_MAX], a further [post()] is defined and adds one to the count. *)
Theorem post_defined_below_INT_MAX
  (limit : Z) (tr : list sem_event) (s : Semaphore) (m : nat) :
  sem_run (Semaphore_new limit) tr = Some (s, m) →
  limit + Z.of_nat (posts tr) < INT_MAX →
  ∃ s', post s = Some s' ∧ resLimit_ s' = resLimit_ s + 1.
Proof.
  intros Hrun Hb. pose proof (sem_run_count _ _ _ _ Hrun) as [Hc _].
  simpl in Hc. unfold post.
  destruct (Z.ltb_spec (resLimit_ s) INT_MAX); [eauto|lia].
Qed.

(** X10: a thread asleep in [wait()] is released by the next [post()]: the
    post moves it to the notified threads, and when it is the first to take
    the mutex again its [wait()] returns, leaving the count as it was before
    the post. *)
Theorem post_releases_sleeper (s : Semaphore) (t : nat) :
  t ∈ cond_ s → 0 ≤ resLimit_ s → resLimit_ s < INT_MAX →
  ∃ s1 s2, sem_step s CallPost = Some (s1, false) ∧
           t ∈ notified s1 ∧
           sem_step s1 (Resume t) = Some (s2, true) ∧
           (t ∉ cond_ s2 ∪ notified s2) ∧
           resLimit_ s2 = resLimit_ s.
Proof.
  intros Ht Hc Hmax. simpl. unfold post.
  destruct (Z.ltb_spec (resLimit_ s) INT_MAX); [|lia]. simpl.
  eexists _, _. split; [done|]. split; [set_unfold; tauto|].
  destruct (decide _) as [_|Hout]; [|exfalso; apply Hout; set_unfold; tauto].
  unfold wait_test, wait_pred. simpl.
  destruct (Z.ltb_spec 0 (resLimit_ s + 1)); [|lia].
  split; [done|]. simpl. split; [set_unfold; tauto|lia].
Qed.

End Properties.

(** C6, as the spec states it, fails: after a successful [cast_<int>] on an
    [Any] holding the [int] 5, the object still holds 5 and a second
    [cast_<int>] returns 5 again. *)
Lemma cast_twice_counterexample :
  fst (cast_ (R := sample_rtti) T_int (Any_of (R := sample_rtti) T_int 5))
    = inr 5 ∧
  base_ (snd (cast_ (R := sample_rtti) T_int (Any_of (R := sample_rtti) T_int 5)))
    = Some (Derive (R := sample_rtti) T_int 5) ∧
  fst (cast_ (R := sample_rtti) T_int
         (snd (cast_ (R := sample_rtti) T_int
                 (Any_of (R := sample_rtti) T_int 5)))) = inr 5.
Proof. split; [reflexivity|]. split; reflexivity. Qed.

Lemma cast_succeeds_iff_same_type_witness :
  T_string ≠ T_int ∧
  fst (cast_ (R := sample_rtti) T_string (Any_of (R := sample_rtti) T_int 5))
    = inl TypeMismatch.
Proof.
  split; [discriminate|].
  apply (cast_succeeds_iff_same_type (R := sample_rtti) T_int T_string 5).
  discriminate.
Defined.

Lemma cast_empty_throws_witness :
  base_ (snd (Any_move (Any_of (R := sample_rtti) T_string "done"%string)))
    = None ∧
  cast_ (R := sample_rtti) T_string
    (snd (Any_move (Any_of (R := sample_rtti) T_string "done"%string)))
  = (inl TypeMismatch,
     snd (Any_move (Any_of (R := sample_rtti) T_string "done"%string))).
Proof.
  split; [reflexivity|].
  apply (cast_empty_throws (R := sample_rtti) T_string). reflexivity.
Defined.

(** A schedule on a fresh semaphore: thread 0 waits and blocks, a post wakes
    it, it resumes and returns; and on a fresh semaphore a post followed by a
    wait of thread 1 returns at once. *)
Lemma semaphore_counts_witness :
  (sem_run Semaphore_default [CallWait 0%nat; CallPost; Resume 0%nat]
     = Some (Semaphore_default, 1%nat) ∧
   resLimit_ Semaphore_default
     = Z.of_nat (posts [CallWait 0%nat; CallPost; Resume 0%nat])
       - Z.of_nat 1) ∧
  (sem_reachable Semaphore_default ∧
   ∃ s1 s2, sem_step Semaphore_default CallPost = Some (s1, false) ∧
            sem_step s1 (CallWait 1%nat) = Some (s2, true) ∧
            resLimit_ s2 = resLimit_ Semaphore_default).
Proof.
  destruct (semaphore_counts) as (_ & _ & _ & Hcount & Hafter).
  split; split.
  - reflexivity.
  - apply Hcount. reflexivity.
  - exists [], 0%nat. reflexivity.
  - apply Hafter.
    + exists [], 0%nat. reflexivity.
    + reflexivity.
    + simpl. intros Hin. set_unfold in Hin. tauto.
Defined.


Lemma handle_valid_iff_enqueued_witness :
  isValid_ (Result_new (R := sample_rtti) 3%nat false) = false ∧
  get 0%nat (Result_new (R := sample_rtti) 3%nat false)
  = (GetReturned Any_default, Result_new 3%nat false).
Proof.
  split; [reflexivity|].
  destruct (handle_valid_iff_enqueued (R := sample_rtti) (Task := nat))
    as (_ & Hget & _).
  apply Hget. reflexivity.
Defined.

(** A pool started with two workers, then a submission and a worker pass. *)
Lemma setters_reject_after_start_witness :
  start 2 0 (ThreadPool_new (Task := nat) MODE_FIXED 4)
  = (inr tt, (2, snd (snd (start 2 0 (ThreadPool_new MODE_FIXED 4))))) ∧
  setMode MODE_CACHED
    (snd (snd (pool_run (R := sample_rtti) [EvSubmit 1%nat; EvWorker 0 false] 2
                 (snd (snd (start 2 0 (ThreadPool_new MODE_FIXED 4)))))))
  = (inl AlreadyRunning,
     snd (snd (pool_run (R := sample_rtti) [EvSubmit 1%nat; EvWorker 0 false] 2
                 (snd (snd (start 2 0 (ThreadPool_new MODE_FIXED 4))))))).
Proof.
  split; [reflexivity|].
  apply (setters_reject_after_start (R := sample_rtti) 2 0 2
           (ThreadPool_new MODE_FIXED 4)
           (snd (snd (start 2 0 (ThreadPool_new MODE_FIXED 4))))
           [EvSubmit 1%nat; EvWorker 0 false]).
  reflexivity.
Defined.

(** Two submissions and one worker pass on a running pool with an empty
    queue: task 1 is delivered, task 2 waits. *)
Lemma fifo_delivery_witness :
  taskQue_ empty_pool = [] ∧
  accepted [EvSubmit 1%nat; EvSubmit 2%nat; EvWorker 0 false]
    (fst (pool_run (R := sample_rtti)
            [EvSubmit 1%nat; EvSubmit 2%nat; EvWorker 0 false] 0
            empty_pool))
  = delivered
      (fst (pool_run (R := sample_rtti)
              [EvSubmit 1%nat; EvSubmit 2%nat; EvWorker 0 false] 0
              empty_pool))
    ++ [2%nat].
Proof.
  split; [reflexivity|].
  destruct (fifo_delivery (R := sample_rtti)
              [EvSubmit 1%nat; EvSubmit 2%nat; EvWorker 0 false] 0
              empty_pool)
    as [_ Hfifo].
  destruct Hfifo as [Hsplit _]; [reflexivity|]. exact Hsplit.
Defined.

Lemma cast_returns_iff_holds_witness :
  base_ (Any_of (R := sample_rtti) T_int 5)
    = Some (Derive (R := sample_rtti) T_int 5) ∧
  fst (cast_ (R := sample_rtti) T_int (Any_of (R := sample_rtti) T_int 5))
    = inr 5.
Proof.
  split; [reflexivity|].
  apply (cast_returns_iff_holds (R := sample_rtti) T_int). reflexivity.
Defined.

Lemma cast_throws_iff_witness :
  base_ (Any_default (R := sample_rtti)) = None ∧
  ∃ e, fst (cast_ (R := sample_rtti) T_long Any_default) = inl e.
Proof.
  split; [reflexivity|].
  destruct (cast_throws_iff (R := sample_rtti) T_long Any_default)
    as [Hiff _].
  apply Hiff. left. reflexivity.
Defined.

Lemma Any_holds_one_type_witness :
  base_ (Any_of (R := sample_rtti) T_string "ok"%string) ≠ None ∧
  ∃ T (v : payload T),
    fst (cast_ T (Any_of (R := sample_rtti) T_string "ok"%string)) = inr v.
Proof.
  split; [discriminate|].
  destruct (Any_holds_one_type (R := sample_rtti)
              (Any_of (R := sample_rtti) T_string "ok"%string))
    as [_ Hsome].
  apply Hsome. discriminate.
Defined.

(** [Semaphore(1)]: thread 0 takes the resource, thread 1 blocks, a post
    wakes it and it returns. *)
Lemma semaphore_conservation_witness :
  sem_run (Semaphore_new 1)
    [CallWait 0%nat; CallWait 1%nat; CallPost; Resume 1%nat]
    = Some (Semaphore_default, 2%nat) ∧
  Z.of_nat 2 ≤ Z.max 0 (1 + Z.of_nat 1).
Proof.
  split; [reflexivity|].
  apply (semaphore_conservation 1
           [CallWait 0%nat; CallWait 1%nat; CallPost; Resume 1%nat]
           Semaphore_default 2).
  reflexivity.
Defined.

Lemma semaphore_no_lost_wakeup_witness :
  (sem_run (Semaphore_new 0) [CallWait 0%nat]
     = Some (mkSemaphore 0 {[0%nat]} ∅, 0%nat) ∧
   0%nat ∈ cond_ (mkSemaphore 0 {[0%nat]} ∅)) ∧
  resLimit_ (mkSemaphore 0 {[0%nat]} ∅) ≤ 0.
Proof.
  split; [split; [reflexivity|compute_done]|].
  apply (semaphore_no_lost_wakeup 0 [CallWait 0%nat]
           (mkSemaphore 0 {[0%nat]} ∅) 0 0).
  - reflexivity.
  - compute_done.
Defined.

Lemma semaphore_admits_limit_witness :
  (0 ≤ 2 ∧ NoDup [0%nat; 1%nat; 2%nat]) ∧
  ∃ s, sem_run (Semaphore_new 2) (CallWait <$> [0%nat; 1%nat; 2%nat])
       = Some (s, Z.to_nat (Z.min 2 (Z.of_nat 3))) ∧
       resLimit_ s = Z.max 0 (2 - Z.of_nat 3).
Proof.
  split; [split; [lia|compute_done]|].
  apply (semaphore_admits_limit 2 [0%nat; 1%nat; 2%nat]); [lia|compute_done].
Defined.

Lemma semaphore_negative_limit_witness :
  -2 + Z.of_nat 2 ≤ INT_MAX ∧
  ∃ s, sem_run (Semaphore_new (-2)) (replicate 2 CallPost) = Some (s, 0%nat) ∧
       resLimit_ s = -2 + Z.of_nat 2 ∧
       (snd (wait_test 0 s) = Returned ↔ 0 < -2 + Z.of_nat 2).
Proof.
  split; [unfold INT_MAX; lia|].
  apply (semaphore_negative_limit (-2) 2 0). unfold INT_MAX. lia.
Defined.

Lemma post_defined_below_INT_MAX_witness :
  (sem_run (Semaphore_new 1)
     [CallWait 0%nat; CallWait 1%nat; CallPost; Resume 1%nat]
     = Some (Semaphore_default, 2%nat) ∧
   1 + Z.of_nat 1 < INT_MAX) ∧
  ∃ s', post Semaphore_default = Some s' ∧
        resLimit_ s' = resLimit_ Semaphore_default + 1.
Proof.
  split; [split; [reflexivity|unfold INT_MAX; simpl; lia]|].
  apply (post_defined_below_INT_MAX 1
           [CallWait 0%nat; CallWait 1%nat; CallPost; Resume 1%nat]
           Semaphore_default 2).
  - reflexivity.
  - unfold INT_MAX. simpl. lia.
Defined.

Lemma post_releases_sleeper_witness :
  (0%nat ∈ cond_ (mkSemaphore 0 {[0%nat]} ∅) ∧
   0 ≤ resLimit_ (mkSemaphore 0 {[0%nat]} ∅) < INT_MAX) ∧
  ∃ s1 s2,
    sem_step (mkSemaphore 0 {[0%nat]} ∅) CallPost = Some (s1, false) ∧
    0%nat ∈ notified s1 ∧
    sem_step s1 (Resume 0%nat) = Some (s2, true) ∧
    (0%nat ∉ cond_ s2 ∪ notified s2) ∧
    resLimit_ s2 = resLimit_ (mkSemaphore 0 {[0%nat]} ∅).
Proof.
  split; [split; [compute_done|unfold INT_MAX; simpl; lia]|].
  apply (post_releases_sleeper (mkSemaphore 0 {[0%nat]} ∅) 0).
  - compute_done.
  - simpl. lia.
  - unfold INT_MAX. simpl. lia.
Defined.
